(** * The HarfBuzz array-accessor shim of tdewolff/canvas ([text/harfbuzz.c])

    The file holds two C functions, [get_glyph_info] and [get_glyph_position];
    each returns [&p[i]] for a pointer [p] into an array of HarfBuzz records
    and an [unsigned int] index [i].

    The embedding is at the level of the machine the code is compiled for:
    - an address is an integer of [ptr_bits] bits, kept as a [Z] with its
      wrap-around written out ([to_ptr]);
    - an [unsigned int] is an integer of 32 bits, kept as a [Z] with its
      wrap-around written out ([to_uint]);
    - a C function is a computation over the memory ([C]): it receives the
      memory, and either returns a value together with the memory it leaves
      behind, or traps.

    The record types [hb_glyph_info_t] and [hb_glyph_position_t] come from
    [<hb.h>], which belongs to HarfBuzz and not to this repository; the only
    thing the code needs from them is their size, which is a parameter of the
    development, as is the width of a pointer. *)

From Stdlib Require Import ZArith Lia List.
Import ListNotations.
Open Scope Z_scope.

(** ** Machine integers *)

(** [unsigned int] on every target the host language supports. *)
Definition UINT_BITS : Z := 32.
Definition UINT_MODULUS : Z := 2 ^ UINT_BITS.

(** Conversion of an integer value to [unsigned int]: reduction modulo
    [UINT_MODULUS].  It is what happens to an argument when it is bound to a
    parameter of type [unsigned int]. *)
Definition to_uint (z : Z) : Z := z mod UINT_MODULUS.

Definition is_uint (z : Z) : Prop := 0 <= z < UINT_MODULUS.

(** ** Memory and computations *)

Definition addr : Type := Z.

(** A byte-addressed memory; [None] marks an address that holds no object. *)
Definition mem : Type := addr -> option Byte.byte.

(** The bytes of the [j]-th record of [k] bytes in the array at [B]. *)
Definition record_at (m : mem) (B k j : Z) : list (option Byte.byte) :=
  map (fun o => m (B + j * k + Z.of_nat o)) (seq 0 (Z.to_nat k)).

Inductive outcome (A : Type) : Type :=
| Returns (v : A) (m : mem)
| Traps.

Arguments Returns {A} v m.
Arguments Traps {A}.

Definition C (A : Type) : Type := mem -> outcome A.

Definition Return {A : Type} (v : A) : C A := fun m => Returns v m.

Definition bind {A B : Type} (c : C A) (f : A -> C B) : C B :=
  fun m => match c m with
           | Returns v m' => f v m'
           | Traps => Traps
           end.

Notation "x <- c1 ;; c2" := (bind c1 (fun x => c2))
  (at level 61, c1 at next level, right associativity).

(** The two accesses C code can make to the memory; each traps at an address
    that holds no object.  The accessors below make neither. *)
Definition load (p : addr) : C Byte.byte :=
  fun m => match m p with
           | Some b => Returns b m
           | None => Traps
           end.

Definition store (p : addr) (b : Byte.byte) : C unit :=
  fun m => match m p with
           | Some _ => Returns tt (fun q => if q =? p then Some b else m q)
           | None => Traps
           end.

(** A memory that holds three zeroed 20-byte records at 0x1000 and nothing
    else. *)
Definition three_glyphs : mem :=
  fun p => if andb (0x1000 <=? p) (p <? 0x103c) then Some Byte.x00 else None.

Definition value_of {A : Type} (o : outcome A) : option A :=
  match o with Returns v _ => Some v | Traps => None end.

Definition memory_of {A : Type} (o : outcome A) : option mem :=
  match o with Returns _ m => Some m | Traps => None end.

(** The address the specification assigns to the [i]-th record:
    base address plus index times record size. *)
Definition spec_record_address (record_size B i : Z) : Z :=
  B + i * record_size.

(** ** The two accessors *)

Inductive accessor : Type := GlyphInfo | GlyphPosition.

Section Shim.

(** Width of a data pointer on the target, in bits. *)
Variable ptr_bits : N.

(** [sizeof(hb_glyph_info_t)] and [sizeof(hb_glyph_position_t)]. *)
Variable sizeof_hb_glyph_info_t : Z.
Variable sizeof_hb_glyph_position_t : Z.

Definition ptr_modulus : Z := 2 ^ Z.of_N ptr_bits.

Definition to_ptr (z : Z) : addr := z mod ptr_modulus.

Definition is_ptr (a : addr) : Prop := 0 <= a < ptr_modulus.

(** [p + i] for a pointer [p] to elements of [sz] bytes: the index is
    scaled by the element size and the sum is an address again. *)
Definition ptr_add (sz : Z) (p : addr) (i : Z) : addr :=
  to_ptr (p + i * sz).

(** [&p[i]].  [p[i]] is [*(p + i)], and [&*e] is [e] without any access to
    the object: the expression is the pointer addition alone. *)
Definition addr_of_subscript (sz : Z) (p : addr) (i : Z) : addr :=
  ptr_add sz p i.

(** [hb_glyph_info_t *get_glyph_info(hb_glyph_info_t *info, unsigned int i)
    { return &info[i]; }] *)
Definition get_glyph_info (info : addr) (i : Z) : C addr :=
  let i := to_uint i in
  Return (addr_of_subscript sizeof_hb_glyph_info_t info i).

(** [hb_glyph_position_t *get_glyph_position(hb_glyph_position_t *pos,
    unsigned int i) { return &pos[i]; }] *)
Definition get_glyph_position (pos : addr) (i : Z) : C addr :=
  let i := to_uint i in
  Return (addr_of_subscript sizeof_hb_glyph_position_t pos i).

(** Either accessor, with the size of the records it walks over. *)
Definition sizeof_record (a : accessor) : Z :=
  match a with
  | GlyphInfo => sizeof_hb_glyph_info_t
  | GlyphPosition => sizeof_hb_glyph_position_t
  end.

Definition call (a : accessor) : addr -> Z -> C addr :=
  match a with
  | GlyphInfo => get_glyph_info
  | GlyphPosition => get_glyph_position
  end.

(** An array of [n] contiguous records of [k] bytes based at [B]: the
    records have a size and the whole array lies in the address space. *)
Definition array_at (B n k : Z) : Prop :=
  0 < k /\ 0 <= n /\ 0 <= B /\ B + n * k <= ptr_modulus.


(** ** Arithmetic of the two machine types *)

Lemma ptr_modulus_pos : 0 < ptr_modulus.
Proof.
  unfold ptr_modulus. apply Z.pow_pos_nonneg; lia.
Qed.

Lemma UINT_MODULUS_pos : 0 < UINT_MODULUS.
Proof.
  reflexivity.
Qed.

Lemma to_uint_range (z : Z) : is_uint (to_uint z).
Proof.
  unfold is_uint, to_uint. apply Z.mod_pos_bound, UINT_MODULUS_pos.
Qed.

Lemma to_uint_small (i : Z) : is_uint i -> to_uint i = i.
Proof.
  unfold is_uint, to_uint. intros Hi. now apply Z.mod_small.
Qed.

Lemma to_uint_idem (z : Z) : to_uint (to_uint z) = to_uint z.
Proof.
  apply to_uint_small, to_uint_range.
Qed.

Lemma to_ptr_range (z : Z) : is_ptr (to_ptr z).
Proof.
  unfold is_ptr, to_ptr. apply Z.mod_pos_bound, ptr_modulus_pos.
Qed.

Lemma to_ptr_small (a : addr) : is_ptr a -> to_ptr a = a.
Proof.
  unfold is_ptr, to_ptr. intros Ha. now apply Z.mod_small.
Qed.

Lemma to_ptr_add_l (a b : Z) : to_ptr (to_ptr a + b) = to_ptr (a + b).
Proof.
  unfold to_ptr. apply Zplus_mod_idemp_l.
Qed.

(** One wrap of the address space. *)
Lemma to_ptr_wrap_once (z : Z) :
  ptr_modulus <= z < 2 * ptr_modulus -> to_ptr z = z - ptr_modulus.
Proof.
  intros Hz. unfold to_ptr. symmetry.
  apply Z.mod_unique with (q := 1); lia.
Qed.

(** ** What a call computes *)

(** Both accessors are one address computation, whatever the memory. *)
Lemma call_eq (a : accessor) (B i : Z) (m : mem) :
  call a B i m = Returns (to_ptr (B + to_uint i * sizeof_record a)) m.
Proof.
  destruct a; reflexivity.
Qed.

(** A record of an array lies inside the array, hence inside the address
    space. *)
Lemma record_in_array (B n k i : Z) :
  array_at B n k -> 0 <= i < n ->
  B <= B + i * k /\ B + i * k + k <= B + n * k /\ is_ptr (B + i * k).
Proof.
  unfold array_at, is_ptr. intros (Hk & Hn & HB & Hend) Hi.
  assert (0 <= i * k) by (apply Z.mul_nonneg_nonneg; lia).
  assert (i * k + k <= n * k) by nia.
  lia.
Qed.

Lemma call_in_bounds (a : accessor) (B n i : Z) (m : mem) :
  array_at B n (sizeof_record a) -> 0 <= i < n -> is_uint i ->
  call a B i m = Returns (B + i * sizeof_record a) m.
Proof.
  intros Harr Hi Hu.
  rewrite call_eq, (to_uint_small i Hu), to_ptr_small; [reflexivity|].
  now apply (record_in_array B n).
Qed.

(** An index past the end whose byte offset alone fits the address space
    (on a 64-bit target: every [unsigned int] index, for records of less
    than 4 GiB) never yields an address inside the array. *)
Lemma out_of_range_outside_when_offset_fits (a : accessor) (B n i : Z) :
  array_at B n (sizeof_record a) -> n <= i ->
  i * sizeof_record a < ptr_modulus ->
  ~ (B <= to_ptr (B + i * sizeof_record a) < B + n * sizeof_record a).
Proof.
  set (k := sizeof_record a).
  unfold array_at. intros (Hk & Hn & HB & Hend) Hi Hoff.
  assert (n * k <= i * k) by nia.
  destruct (Z_lt_ge_dec (B + i * k) ptr_modulus) as [Hfit | Hwrap].
  - rewrite to_ptr_small by (unfold is_ptr; nia). lia.
  - rewrite to_ptr_wrap_once by nia. lia.
Qed.
(** ** The properties of the shim *)

(** C1.  For an array of [n] contiguous records of [k] bytes based at [B]
    and an index [0 <= i < n] (an [unsigned int]), either accessor returns
    exactly the address [B + i * k], which is the start of a record lying
    wholly inside the array; for [i = n - 1] that record is the last one: it
    ends where the array ends. *)
Theorem accessor_in_bounds_address (a : accessor) (B n i : Z) (m : mem) :
  array_at B n (sizeof_record a) -> 0 <= i < n -> is_uint i ->
  call a B i m = Returns (B + i * sizeof_record a) m /\
  B <= B + i * sizeof_record a /\
  B + i * sizeof_record a + sizeof_record a <= B + n * sizeof_record a /\
  (i = n - 1 ->
   B + i * sizeof_record a + sizeof_record a = B + n * sizeof_record a).
Proof.
  intros Harr Hi Hu.
  destruct (record_in_array B n _ i Harr Hi) as (Hlo & Hhi & _).
  split; [now apply call_in_bounds with (n := n)|].
  repeat split; try assumption.
  intros ->. ring.
Qed.

(** C2.  With index 0 either accessor returns the base address itself. *)
Theorem accessor_index_zero (a : accessor) (B : addr) (m : mem) :
  is_ptr B -> call a B 0 m = Returns B m.
Proof.
  intros HB. rewrite call_eq.
  replace (to_uint 0) with 0 by reflexivity.
  rewrite Z.mul_0_l, Z.add_0_r, to_ptr_small by assumption.
  reflexivity.
Qed.

(** C3.  Either accessor is deterministic: the address it returns is fixed
    by the base address and the index alone.  Whatever the memory is, the
    call returns that address; two calls made in two different memories
    return the same address; and two calls made one after the other return
    twice the same address. *)
Theorem accessor_deterministic (a : accessor) (B i : Z) :
  exists p : addr,
    (forall m, value_of (call a B i m) = Some p) /\
    (forall m1 m2,
        value_of (call a B i m1) = value_of (call a B i m2)) /\
    (forall m,
        value_of ((p1 <- call a B i ;; p2 <- call a B i ;; Return (p1, p2)) m)
        = Some (p, p)).
Proof.
  exists (to_ptr (B + to_uint i * sizeof_record a)).
  split; [|split].
  - intros m. now rewrite call_eq.
  - intros m1 m2. now rewrite !call_eq.
  - intros m. unfold bind. now rewrite !call_eq.
Qed.

(** C5.  Neither accessor has a side effect: the memory a call leaves
    behind is the memory it was given, so every record of every array holds
    the bytes it held before the call. *)
Theorem accessor_leaves_memory_unchanged (a : accessor) (B i : Z) (m : mem) :
  memory_of (call a B i m) = Some m /\
  (forall m', memory_of (call a B i m) = Some m' ->
              forall B0 k j, record_at m' B0 k j = record_at m B0 k j).
Proof.
  rewrite call_eq. simpl. split; [reflexivity|].
  intros m' Hm'. injection Hm' as <-. reflexivity.
Qed.

(** C6.  Neither accessor ever fails: for every base address and every
    index, in range or not, the call returns normally, with an address as
    its result; it never traps. *)
Theorem accessor_never_fails (a : accessor) (B i : Z) (m : mem) :
  call a B i m <> Traps /\
  exists p : addr, call a B i m = Returns p m /\ is_ptr p.
Proof.
  rewrite call_eq. split; [discriminate|].
  eexists. split; [reflexivity|]. apply to_ptr_range.
Qed.

(** C8, as amended.  The accessors check no bound: for an array of [n]
    records of [k] bytes based at [B] and an index [i >= n], the call still
    returns normally, leaves the memory as it is, and its result is
    [B + i * k] reduced modulo [2 ^ ptr_bits].  Whenever [B + i * k] still
    fits the address space, the result is [B + i * k] itself, which lies at
    or beyond the end of the array, outside [[B, B + n * k)]. *)
Theorem accessor_unchecked_out_of_range (a : accessor) (B n i : Z) (m : mem) :
  array_at B n (sizeof_record a) -> n <= i -> is_uint i ->
  call a B i m
  = Returns ((B + i * sizeof_record a) mod 2 ^ Z.of_N ptr_bits) m /\
  (B + i * sizeof_record a < 2 ^ Z.of_N ptr_bits ->
   call a B i m = Returns (B + i * sizeof_record a) m /\
   B + n * sizeof_record a <= B + i * sizeof_record a /\
   ~ (B <= B + i * sizeof_record a < B + n * sizeof_record a)).
Proof.
  set (k := sizeof_record a).
  intros Harr Hi Hu.
  assert (Hcall : call a B i m = Returns (to_ptr (B + i * k)) m)
    by (rewrite call_eq, (to_uint_small i Hu); reflexivity).
  split; [exact Hcall|].
  fold ptr_modulus. intros Hfit.
  assert (Hle : n * k <= i * k)
    by (destruct Harr as (Hk & _); apply Z.mul_le_mono_nonneg_r; lia).
  split; [|lia].
  rewrite Hcall, to_ptr_small; [reflexivity|].
  destruct Harr as (Hk & Hn & HB & _). unfold is_ptr. nia.
Qed.

(** C9.  The index is an [unsigned int]: the accessors see it modulo 2^32.
    For any integer [x] the address returned is computed from [x mod 2^32],
    a value of [[0, 2^32)]: it is [B + (x mod 2^32) * k], as an address.  So
    a call with [x] is the call with [to_uint x]; -1 becomes 2^32 - 1 and is
    used in the address computation, the call returning normally; and
    [x + 2^32] cannot be told from [x]. *)
Theorem accessor_index_modulo_2_32 (a : accessor) (B x : Z) (m : mem) :
  call a B x m
  = Returns ((B + (x mod 2 ^ 32) * sizeof_record a) mod 2 ^ Z.of_N ptr_bits)
            m /\
  to_uint x = x mod 2 ^ 32 /\
  0 <= x mod 2 ^ 32 < 2 ^ 32 /\
  call a B x m = call a B (to_uint x) m /\
  is_uint (to_uint x) /\
  to_uint (-1) = 2 ^ 32 - 1 /\
  call a B (-1) m
  = Returns ((B + (2 ^ 32 - 1) * sizeof_record a) mod 2 ^ Z.of_N ptr_bits)
            m /\
  call a B (x + 2 ^ 32) m = call a B x m.
Proof.
  split; [apply call_eq|].
  split; [reflexivity|].
  split; [apply (to_uint_range x)|].
  split; [now rewrite !call_eq, to_uint_idem|].
  split; [apply to_uint_range|].
  split; [reflexivity|].
  split; [apply call_eq|].
  rewrite !call_eq. unfold to_uint.
  replace (x + 2 ^ 32) with (x + 1 * UINT_MODULUS) by reflexivity.
  now rewrite Z_mod_plus_full.
Qed.

(** C10.  Indexing composes additively: for indices [i] and [j] whose sum
    is still an [unsigned int], calling an accessor at index [j] on the
    address it returned for [(B, i)] is calling it once at [(B, i + j)]. *)
Theorem accessor_composes_additively (a : accessor) (B i j : Z) (m : mem) :
  0 <= i -> 0 <= j -> i + j < UINT_MODULUS ->
  (p <- call a B i ;; call a p j) m = call a B (i + j) m.
Proof.
  intros Hi Hj Hij. unfold bind.
  rewrite (call_eq a B i), (call_eq a _ j), (call_eq a B (i + j)).
  rewrite !to_uint_small by (unfold is_uint; lia).
  rewrite to_ptr_add_l. f_equal. f_equal. ring.
Qed.

(** ** Further properties of the address computation *)

(** X1.  Within an array the accessors keep the order of the indices and
    the records they designate do not overlap: for [i < j] the record
    returned for [i] ends at or before the start of the one returned for
    [j]; in particular distinct indices give distinct addresses. *)
Theorem accessor_records_do_not_overlap
    (a : accessor) (B n i j : Z) (m : mem) :
  array_at B n (sizeof_record a) -> 0 <= i -> i < j -> j < n -> is_uint j ->
  exists p q : addr,
    call a B i m = Returns p m /\
    call a B j m = Returns q m /\
    p + sizeof_record a <= q /\ p <> q.
Proof.
  intros Harr Hi Hij Hj Hu.
  exists (B + i * sizeof_record a), (B + j * sizeof_record a).
  assert (Hk : 0 < sizeof_record a) by apply Harr.
  split; [|split].
  - apply call_in_bounds with (n := n); unfold is_uint in *; trivial; lia.
  - apply call_in_bounds with (n := n); trivial; lia.
  - assert (i * sizeof_record a + sizeof_record a <= j * sizeof_record a)
      by nia.
    lia.
Qed.

(** X2.  Within an array the index can be read back from the address: the
    offset of the returned address from the base is a whole number of
    records, and dividing it by the record size gives the index. *)
Theorem accessor_index_recovered (a : accessor) (B n i : Z) (m : mem) :
  array_at B n (sizeof_record a) -> 0 <= i < n -> is_uint i ->
  exists p : addr,
    call a B i m = Returns p m /\
    (p - B) / sizeof_record a = i /\
    (p - B) mod sizeof_record a = 0.
Proof.
  intros Harr Hi Hu.
  exists (B + i * sizeof_record a).
  assert (Hk : 0 < sizeof_record a) by apply Harr.
  split; [now apply call_in_bounds with (n := n)|].
  replace (B + i * sizeof_record a - B) with (i * sizeof_record a) by ring.
  split.
  - apply Z.div_mul. lia.
  - apply Z.mod_mul. lia.
Qed.

(** X3.  Where 2^32 records fit the address space (a 64-bit target, for
    records of up to 4 GiB), no index past the end of an array, whatever
    integer the caller passes, makes an accessor return an address inside
    the array. *)
Theorem accessor_out_of_range_never_aliases
    (a : accessor) (B n x : Z) (m : mem) :
  array_at B n (sizeof_record a) ->
  UINT_MODULUS * sizeof_record a <= ptr_modulus ->
  n <= to_uint x ->
  exists p : addr,
    call a B x m = Returns p m /\
    ~ (B <= p < B + n * sizeof_record a).
Proof.
  intros Harr Hfit Hx.
  eexists. split; [apply call_eq|].
  apply out_of_range_outside_when_offset_fits; trivial.
  assert (Hk : 0 < sizeof_record a) by apply Harr.
  pose proof (to_uint_range x) as Hu. unfold is_uint in Hu. nia.
Qed.

(** X4.  Two indices make an accessor return the same address exactly when
    their byte offsets differ by a multiple of the size of the address
    space. *)
Theorem accessor_same_address_iff (a : accessor) (B i j : Z) (m : mem) :
  value_of (call a B i m) = value_of (call a B j m) <->
  (ptr_modulus | (to_uint i - to_uint j) * sizeof_record a).
Proof.
  rewrite !call_eq. simpl. unfold to_ptr.
  pose proof ptr_modulus_pos as HM.
  rewrite <- Z.mod_divide by lia.
  replace ((to_uint i - to_uint j) * sizeof_record a)
    with (B + to_uint i * sizeof_record a - (B + to_uint j * sizeof_record a))
    by ring.
  rewrite <- Z.cong_iff_0.
  split; [now intros [= ->] | now intros ->].
Qed.

(** X5.  The accessors keep alignment, at every index: when the base
    address and the record size are multiples of [d], and [d] divides the
    size of the address space (any power of two up to it does), the address
    returned is a multiple of [d]. *)
Theorem accessor_preserves_alignment (a : accessor) (B x d : Z) (m : mem) :
  (d | B) -> (d | sizeof_record a) -> (d | ptr_modulus) ->
  exists p : addr, call a B x m = Returns p m /\ (d | p).
Proof.
  intros HB Hk HM.
  eexists. split; [apply call_eq|].
  unfold to_ptr. pose proof ptr_modulus_pos as Hpos.
  rewrite Z.mod_eq by lia.
  apply Z.divide_sub_r.
  - apply Z.divide_add_r; [assumption|]. now apply Z.divide_mul_r.
  - now apply Z.divide_mul_l.
Qed.

End Shim.

(** ** Properties at given record sizes *)

(** C4.  The scenario of the specification: three [hb_glyph_info_t] records
    of 20 bytes each, based at address 0x1000.  [get_glyph_info] returns
    0x1000 for index 0, 0x1014 for index 1 and 0x1028 for index 2. *)
Theorem get_glyph_info_three_records (ptr_bits : N) (m : mem) :
  array_at ptr_bits 0x1000 3 20 ->
  get_glyph_info ptr_bits 20 0x1000 0 m = Returns 0x1000 m /\
  get_glyph_info ptr_bits 20 0x1000 1 m = Returns 0x1014 m /\
  get_glyph_info ptr_bits 20 0x1000 2 m = Returns 0x1028 m.
Proof.
  intros Harr.
  assert (Hat : forall i, 0 <= i < 3 ->
            get_glyph_info ptr_bits 20 0x1000 i m
            = Returns (0x1000 + i * 20) m).
  { intros i Hi.
    apply (call_in_bounds ptr_bits 20 20 GlyphInfo 0x1000 3 i m Harr Hi).
    unfold is_uint, UINT_MODULUS, UINT_BITS. simpl. lia. }
  split; [|split].
  - apply (Hat 0). lia.
  - apply (Hat 1). lia.
  - apply (Hat 2). lia.
Qed.

(** C7, as amended.  [get_glyph_position] has the contract of
    [get_glyph_info], over the other record type.  For every base address
    and every index it returns the base plus the index, as an
    [unsigned int], times the record size, as an address, and at equal
    record sizes it is the same function as [get_glyph_info].  Whenever the
    index is an [unsigned int] and base plus index times record size is an
    address, as it is for every index within an array, that is the address
    the specification gives. *)
Theorem get_glyph_position_same_contract
    (ptr_bits : N) (k B i : Z) (m : mem) :
  get_glyph_position ptr_bits k B i m
  = Returns ((B + (i mod 2 ^ 32) * k) mod 2 ^ Z.of_N ptr_bits) m /\
  get_glyph_info ptr_bits k B i m = get_glyph_position ptr_bits k B i m /\
  (is_uint i -> is_ptr ptr_bits (spec_record_address k B i) ->
   get_glyph_position ptr_bits k B i m
   = Returns (spec_record_address k B i) m /\
   get_glyph_info ptr_bits k B i m
   = Returns (spec_record_address k B i) m) /\
  (forall n, array_at ptr_bits B n k -> 0 <= i < n -> is_uint i ->
   get_glyph_position ptr_bits k B i m
   = Returns (spec_record_address k B i) m /\
   get_glyph_info ptr_bits k B i m
   = Returns (spec_record_address k B i) m).
Proof.
  assert (Hfit : is_uint i -> is_ptr ptr_bits (spec_record_address k B i) ->
            get_glyph_position ptr_bits k B i m
            = Returns (spec_record_address k B i) m /\
            get_glyph_info ptr_bits k B i m
            = Returns (spec_record_address k B i) m).
  { intros Hu Hp. unfold spec_record_address in *.
    pose proof (call_eq ptr_bits k k GlyphPosition B i m) as Hpos.
    pose proof (call_eq ptr_bits k k GlyphInfo B i m) as Hinfo.
    simpl in Hpos, Hinfo.
    rewrite (to_uint_small i Hu), to_ptr_small in Hpos, Hinfo by assumption.
    now split. }
  split; [reflexivity|].
  split; [reflexivity|].
  split; [exact Hfit|].
  intros n Harr Hi Hu. apply Hfit; [assumption|].
  now apply (record_in_array ptr_bits B n k i).
Qed.

(** C7, as stated, fails where the sum leaves the address space: with
    32-bit addresses, base 0x1000 and index 2^30 + 1, and with 64-bit
    addresses, base 0xfffffffffffffff0 and index 1, [get_glyph_position]
    over 20-byte records returns an address that is not base plus index
    times record size. *)
Lemma get_glyph_position_wraps_address_space :
  get_glyph_position 32 20 0x1000 (2 ^ 30 + 1) three_glyphs
  = Returns 0x1014 three_glyphs /\
  0x1014 <> spec_record_address 20 0x1000 (2 ^ 30 + 1) /\
  get_glyph_position 64 20 0xfffffffffffffff0 1 three_glyphs
  = Returns 4 three_glyphs /\
  4 <> spec_record_address 20 0xfffffffffffffff0 1.
Proof.
  repeat split; try reflexivity; discriminate.
Qed.

(** C8, as stated, fails where addresses have 32 bits: in the array of
    three 20-byte records based at 0x1000, the index 2^30 + 1 is past the
    end, yet the call returns 0x1014, the address of the second record. *)
Lemma out_of_range_index_lands_inside_array :
  array_at 32 0x1000 3 20 /\
  3 <= 2 ^ 30 + 1 /\
  is_uint (2 ^ 30 + 1) /\
  get_glyph_info 32 20 0x1000 (2 ^ 30 + 1) three_glyphs
  = Returns 0x1014 three_glyphs /\
  0x1014 <> 0x1000 + (2 ^ 30 + 1) * 20 /\
  0x1000 <= 0x1014 < 0x1000 + 3 * 20.
Proof.
  unfold array_at, is_uint.
  repeat split; try reflexivity; try discriminate.
Qed.

(** ** The memory model at work *)

(** A store is an effect the model sees: it changes the record it hits. *)
Lemma store_changes_record :
  exists m',
    memory_of (store 0x1000 Byte.x01 three_glyphs) = Some m' /\
    record_at m' 0x1000 20 0 <> record_at three_glyphs 0x1000 20 0.
Proof.
  eexists. split; [reflexivity|]. discriminate.
Qed.

(** The shim hands out the address of the record one past the end without
    complaint; it is the read through that address that traps, while the
    read through the address of a record of the array goes through. *)
Lemma read_through_returned_address :
  (p <- get_glyph_info 64 20 0x1000 2 ;; load p) three_glyphs
  = Returns Byte.x00 three_glyphs /\
  (p <- get_glyph_info 64 20 0x1000 3 ;; load p) three_glyphs = Traps.
Proof.
  split; reflexivity.
Qed.

(** ** The theorems at concrete inputs *)

Lemma accessor_in_bounds_address_witness :
  call 64 20 20 GlyphPosition 0x1000 2 three_glyphs
  = Returns 0x1028 three_glyphs.
Proof.
  apply (accessor_in_bounds_address 64 20 20 GlyphPosition 0x1000 3 2).
  - unfold array_at, ptr_modulus. simpl. lia.
  - lia.
  - unfold is_uint, UINT_MODULUS. simpl. lia.
Defined.

Lemma accessor_index_zero_witness :
  call 64 20 20 GlyphInfo 0x1000 0 three_glyphs = Returns 0x1000 three_glyphs.
Proof.
  apply (accessor_index_zero 64 20 20 GlyphInfo 0x1000).
  unfold is_ptr, ptr_modulus. simpl. lia.
Defined.

Lemma get_glyph_info_three_records_witness :
  get_glyph_info 64 20 0x1000 2 three_glyphs = Returns 0x1028 three_glyphs.
Proof.
  apply (get_glyph_info_three_records 64 three_glyphs).
  unfold array_at, ptr_modulus. simpl. lia.
Defined.

Lemma get_glyph_position_same_contract_witness :
  get_glyph_position 64 20 0x1000 5 three_glyphs
  = Returns 0x1064 three_glyphs /\
  get_glyph_position 64 20 0x1000 1 three_glyphs
  = Returns 0x1014 three_glyphs.
Proof.
  split.
  - apply (get_glyph_position_same_contract 64 20 0x1000 5 three_glyphs).
    + unfold is_uint, UINT_MODULUS. simpl. lia.
    + unfold is_ptr, ptr_modulus, spec_record_address. simpl. lia.
  - apply (get_glyph_position_same_contract 64 20 0x1000 1 three_glyphs)
      with (n := 3).
    + unfold array_at, ptr_modulus. simpl. lia.
    + lia.
    + unfold is_uint, UINT_MODULUS. simpl. lia.
Defined.

Lemma accessor_unchecked_out_of_range_witness :
  call 64 20 20 GlyphInfo 0x1000 3 three_glyphs
  = Returns 0x103c three_glyphs /\
  0x1000 + 3 * 20 <= 0x1000 + 3 * 20 /\
  ~ (0x1000 <= 0x1000 + 3 * 20 < 0x1000 + 3 * 20).
Proof.
  apply (accessor_unchecked_out_of_range 64 20 20 GlyphInfo 0x1000 3 3).
  - unfold array_at, ptr_modulus. simpl. lia.
  - lia.
  - unfold is_uint, UINT_MODULUS. simpl. lia.
  - simpl. lia.
Defined.

Lemma accessor_composes_additively_witness :
  (p <- call 64 20 20 GlyphInfo 0x1000 1 ;; call 64 20 20 GlyphInfo p 1)
    three_glyphs
  = call 64 20 20 GlyphInfo 0x1000 (1 + 1) three_glyphs.
Proof.
  apply (accessor_composes_additively 64 20 20 GlyphInfo 0x1000 1 1).
  - lia.
  - lia.
  - unfold UINT_MODULUS. simpl. lia.
Defined.

Lemma accessor_records_do_not_overlap_witness :
  exists p q : addr,
    call 64 20 20 GlyphInfo 0x1000 0 three_glyphs = Returns p three_glyphs /\
    call 64 20 20 GlyphInfo 0x1000 2 three_glyphs = Returns q three_glyphs /\
    p + 20 <= q /\ p <> q.
Proof.
  apply (accessor_records_do_not_overlap 64 20 20 GlyphInfo 0x1000 3 0 2).
  - unfold array_at, ptr_modulus. simpl. lia.
  - lia.
  - lia.
  - lia.
  - unfold is_uint, UINT_MODULUS. simpl. lia.
Defined.

Lemma accessor_index_recovered_witness :
  exists p : addr,
    call 64 20 20 GlyphPosition 0x1000 2 three_glyphs
    = Returns p three_glyphs /\
    (p - 0x1000) / 20 = 2 /\ (p - 0x1000) mod 20 = 0.
Proof.
  apply (accessor_index_recovered 64 20 20 GlyphPosition 0x1000 3 2).
  - unfold array_at, ptr_modulus. simpl. lia.
  - lia.
  - unfold is_uint, UINT_MODULUS. simpl. lia.
Defined.

Lemma accessor_out_of_range_never_aliases_witness :
  exists p : addr,
    call 64 20 20 GlyphInfo 0x1000 (-1) three_glyphs
    = Returns p three_glyphs /\
    ~ (0x1000 <= p < 0x1000 + 3 * 20).
Proof.
  apply (accessor_out_of_range_never_aliases 64 20 20 GlyphInfo 0x1000 3 (-1)).
  - unfold array_at, ptr_modulus. simpl. lia.
  - unfold UINT_MODULUS, ptr_modulus. simpl. lia.
  - vm_compute. discriminate.
Defined.

Lemma accessor_preserves_alignment_witness :
  exists p : addr,
    call 64 20 20 GlyphInfo 0x1000 7 three_glyphs = Returns p three_glyphs /\
    (4 | p).
Proof.
  apply (accessor_preserves_alignment 64 20 20 GlyphInfo 0x1000 7 4).
  - exists 0x400. reflexivity.
  - exists 5. reflexivity.
  - exists (2 ^ 62). reflexivity.
Defined.
